(** * The colorcet user-guide notebook: swatch and grid renderers

    A shallow embedding of the two helper functions of
    [examples/user_guide/index.ipynb],

    - [colormap(name, cmap=None, array=xs)], the single-swatch renderer,
    - [colormaps(named_cms, array=xs, cols=3, skip_r=True, size=100)],
      the grid-layout renderer,

    together with the cell that builds the default gradient [xs].

    Python objects that are passed by reference (numpy arrays, sequences of
    pairs) live in a store; the functions run in a small state-and-exception
    monad over that store and the registry [cc.cm]. *)

From Stdlib Require Import QArith.
From stdpp Require Import gmap strings list functions.

Local Open Scope Z_scope.

(** ** Strings: [str.endswith] *)

(** [s.endswith(suffix)]: the last [len(suffix)] characters of [s] are
    compared with [suffix]; a suffix longer than [s] never matches. *)
Definition endswith (s suffix : string) : bool :=
  let n := String.length s in
  let k := String.length suffix in
  if (k <=? n)%nat
  then String.eqb (String.substring (n - k) k s) suffix
  else false.

(** What "the name ends in [suffix]" means, independently of [endswith]. *)
Definition ends_in (suffix s : string) : Prop :=
  ∃ stem : string, s = stem +:+ suffix.

(** ** numpy: [linspace] and [meshgrid] *)

(** A one-dimensional and a two-dimensional numeric array (a list of rows).
    Exact rationals stand for the float64 entries. *)
Abbreviation vector := (list Q) (only parsing).
Abbreviation ndarray := (list (list Q)) (only parsing).

(** Modelled from the spec: numpy's [linspace] is an external library
    function, absent from the sources.  The spec calls the default input a
    linear horizontal gradient; [linspace(start, stop, num)] is taken as
    numpy documents it: [num] evenly spaced samples from [start] to [stop],
    both ends included, sample [i] being [i * step + start] with
    [step = (stop - start) / (num - 1)]. *)
Definition linspace (start stop : Q) (num : nat) : vector :=
  let step := ((stop - start) / inject_Z (Z.of_nat num - 1))%Q in
  (λ i : nat, (inject_Z (Z.of_nat i) * step + start)%Q) <$> seq 0 num.

(** Modelled from the spec: numpy's [meshgrid] is an external library
    function, absent from the sources.  With the default ['xy'] indexing
    [meshgrid(x, y)] returns two arrays of [len(y)] rows and [len(x)]
    columns: the first repeats [x] in every row, the second repeats [y] in
    every column. *)
Definition meshgrid (x y : vector) : ndarray * ndarray :=
  (replicate (length y) x, (λ v, replicate (length x) v) <$> y).

(** ** The store *)

(** References to heap objects. *)
Definition loc : Type := nat.

(** The only exception the two functions can meet in their own code: the
    [KeyError] of a failed dictionary lookup. *)
Inductive exn : Type :=
  | KeyError (key : string).

Inductive outcome (A : Type) : Type :=
  | Return (a : A)
  | Raise (e : exn).
Arguments Return {A} a.
Arguments Raise {A} e.

(** Modelled from the spec: how the external layout arranges its items,
    "wrapping at the given column count" -- the items fill rows of [cols]
    cells from left to right, a new row starting when the current one is
    full.  The layout code itself (holoviews) is absent from the sources. *)
Fixpoint wrap_fuel {A : Type} (fuel cols : nat) (l : list A) : list (list A) :=
  match fuel, l with
  | S fuel', _ :: _ => take cols l :: wrap_fuel fuel' cols (drop cols l)
  | _, _ => []
  end.

Definition wrap {A : Type} (cols : nat) (l : list A) : list (list A) :=
  wrap_fuel (length l) cols l.

(** [ceil(n / c)] on integers, for [c > 0]. *)
Definition ceil_div (n c : Z) : Z := (n + c - 1) / c.

Section Notebook.

(** A colormap, as the plotting library takes it: a colormap object or the
    name of one of matplotlib's own ("viridis").  The notebook never looks
    inside. *)
Context {Cmap : Type}.

(** An element of [named_cms]: a name and a colormap; the second component
    is handed to [colormap] as [cmap], where [None] is a legal value. *)
Definition named_cm : Type := string * option Cmap.

(** What the functions can see of the interpreter's state: the registry
    [cc.cm] (a dictionary from names to colormaps), the numpy arrays and the
    sequences of pairs that exist, and the next free reference. *)
Record World : Type := mkWorld {
  cc_cm : gmap string Cmap;
  arrays : loc → ndarray;
  seqs : loc → list named_cm;
  next : loc
}.

(** Computations: they read and extend the store, and return or raise.
    What was done before an exception stays done. *)
Definition M (A : Type) : Type := World → outcome A * World.

#[global] Instance M_ret : MRet M := λ A a w, (Return a, w).

#[global] Instance M_bind : MBind M := λ A B f m w,
  match m w with
  | (Return a, w') => f a w'
  | (Raise e, w') => (Raise e, w')
  end.

Definition raise {A : Type} (e : exn) : M A := λ w, (Raise e, w).

(** [cc.cm[name]]: the dictionary's lookup, a [KeyError] on a missing key. *)
Definition cm_getitem (name : string) : M Cmap := λ w,
  match cc_cm w !! name with
  | Some c => (Return c, w)
  | None => raise (KeyError name) w
  end.

(** Iterating over a sequence reads its elements in order. *)
Definition iter_seq (l : loc) : M (list named_cm) := λ w, (Return (seqs w l), w).

(** [list(...)] builds a new list object. *)
Definition new_list (v : list named_cm) : M loc := λ w,
  (Return (next w),
   {| cc_cm := cc_cm w; arrays := arrays w;
      seqs := <[next w := v]> (seqs w); next := S (next w) |}).

(** A numpy function returning a new array object. *)
Definition new_array (a : ndarray) : M loc := λ w,
  (Return (next w),
   {| cc_cm := cc_cm w; arrays := <[next w := a]> (arrays w);
      seqs := seqs w; next := S (next w) |}).

(** ** The display objects of holoviews *)

(** [hv.opts.Image(xaxis=…, yaxis=…, aspect=…, fig_size=…, cmap=…)]. *)
Record ImageOpts : Type := opts_Image {
  xaxis : option string;
  yaxis : option string;
  aspect : Z;
  image_fig_size : Z;
  cmap_of : Cmap
}.

(** [hv.Image(array, group=name)]: the image holds the array it was given
    (a reference) and its group; options are attached by [.opts]. *)
Record Image : Type := mkImage {
  data : loc;
  group : string;
  image_opts : option ImageOpts
}.

(** [hv.opts.Layout(sublabel_format=…, fig_size=…)]. *)
Record LayoutOpts : Type := opts_Layout {
  sublabel_format : option string;
  layout_fig_size : Z
}.

(** [hv.Layout(items)]: the items in order, the attached options and the
    column count at which the grid wraps. *)
Record Layout : Type := mkLayout {
  items : list Image;
  layout_opts : option LayoutOpts;
  max_cols : Z
}.

Definition hv_Image (array : loc) (name : string) : Image :=
  {| data := array; group := name; image_opts := None |}.

Definition Image_opts (img : Image) (options : ImageOpts) : Image :=
  {| data := data img; group := group img; image_opts := Some options |}.

(** A fresh layout wraps at holoviews' own default of 4 until [.cols] is
    called. *)
Definition hv_Layout (imgs : list Image) : Layout :=
  {| items := imgs; layout_opts := None; max_cols := 4 |}.

Definition Layout_opts (l : Layout) (options : LayoutOpts) : Layout :=
  {| items := items l; layout_opts := Some options; max_cols := max_cols l |}.

Definition Layout_cols (l : Layout) (cols : Z) : Layout :=
  {| items := items l; layout_opts := layout_opts l; max_cols := cols |}.

(** The rows of the displayed grid. *)
Definition grid_rows (l : Layout) : list (list Image) :=
  wrap (Z.to_nat (max_cols l)) (items l).

(** ** The notebook's code *)

(** [xs, ys = np.meshgrid(np.linspace(0, 1, 80), np.linspace(0, 1, 10))] *)
Definition define_xs_ys : M (loc * loc) :=
  let '(X, Y) := meshgrid (linspace 0 1 80) (linspace 0 1 10) in
  xs ← new_array X;
  ys ← new_array Y;
  mret (xs, ys).

(** The array [xs] names when the two functions are defined: a default
    argument is evaluated once, at definition time. *)
Variable xs : loc.

(** [[
def colormap(name, cmap=None, array=xs):
    if cmap is None:
        cmap = cc.cm[name]
    options = hv.opts.Image(xaxis=None, yaxis=None, aspect=3, fig_size=200, cmap=cmap)
    return hv.Image(array, group=name).opts(options)
]]
    An argument left out is [None] on the Rocq side. *)
Definition colormap (name : string) (cmap : option Cmap) (array : option loc)
  : M Image :=
  let array := default xs array in
  cmap ← match cmap with
         | None => cm_getitem name
         | Some c => mret c
         end;
  let options := opts_Image None None 3 200 cmap in
  mret (Image_opts (hv_Image array name) options).

(** The test of the filter's lambda: [not x[0].endswith('_r')]. *)
Definition not_reversed (x : named_cm) : bool := negb (endswith x.1 "_r").

(** [[
def colormaps(named_cms, array=xs, cols=3, skip_r=True, size=100):
    if skip_r:
        named_cms = list(filter(lambda x: not x[0].endswith('_r'), named_cms))
    options = hv.opts.Layout(sublabel_format=None, fig_size=size)
    return hv.Layout([colormap(name, cm, array) for name, cm in named_cms]).opts(options).cols(cols)
]] *)
Definition colormaps (named_cms : loc)
    (array : option loc) (cols : option Z) (skip_r : option bool)
    (size : option Z) : M Layout :=
  let array := default xs array in
  let cols := default 3 cols in
  let skip_r := default true skip_r in
  let size := default 100 size in
  named_cms ← (if skip_r
               then entries ← iter_seq named_cms;
                    new_list (List.filter not_reversed entries)
               else mret named_cms);
  let options := opts_Layout None size in
  entries ← iter_seq named_cms;
  images ← mapM (λ '(name, cm), colormap name cm (Some array)) entries;
  mret (Layout_cols (Layout_opts (hv_Layout images) options) cols).

(** ** Auxiliary notions for the statements *)

(** The swatch of a name, a colormap and an array. *)
Definition swatch_of (a : loc) (name : string) (c : Cmap) : Image :=
  {| data := a; group := name;
     image_opts := Some (opts_Image None None 3 200 c) |}.

(** The list comprehension of [colormaps]. *)
Definition comprehension (a : loc)
  : list named_cm → M (list Image) :=
  mapM (λ '(name, cm), colormap name cm (Some a)).

(** The sequence that [colormaps] renders, and the world it renders it in. *)
Definition rendered (skip_r : option bool) (entries : list named_cm)
  : list named_cm :=
  if default true skip_r then List.filter not_reversed entries else entries.

Definition world_after (skip_r : option bool) (named_cms : loc) (w : World) : World :=
  if default true skip_r
  then (new_list (List.filter not_reversed (seqs w named_cms)) w).2
  else w.

End Notebook.

(** The entry of a two-dimensional array at row [i] and column [j]. *)
Definition at2 (a : ndarray) (i j : nat) : option Q :=
  row ← a !! i; row !! j.

(** [removes_exactly P l k]: [k] is [l] with exactly the elements that
    satisfy [P] taken out, the others staying in place and in order. *)
Inductive removes_exactly {A : Type} (P : A → Prop) : list A → list A → Prop :=
  | removes_nil : removes_exactly P [] []
  | removes_drop x l k :
      P x → removes_exactly P l k → removes_exactly P (x :: l) k
  | removes_keep x l k :
      ¬ P x → removes_exactly P l k → removes_exactly P (x :: l) (x :: k).

(** ** A small world to evaluate the definitions in *)

(** Colormaps are matplotlib names here.  The registry holds ["fire"]; the
    sequence at reference 0 is the one of the spec's example; the array at
    reference 1 is a two-by-two test image. *)
Definition demo_world : World (Cmap := string) :=
  {| cc_cm := {[ "fire" := "linear_kryw_0_100_c71" ]};
     arrays := <[1%nat := [[0; 1]; [1; 0]]%Q]> (λ _, []);
     seqs := <[0%nat := [("fire", Some "cmap_a"); ("fire_r", Some "cmap_b");
                         ("rainbow", Some "cmap_c")]]> (λ _, []);
     next := 2%nat |}.


(** ** The cells that call [colormaps] *)

(** [sub in s] on strings: [sub] occurs somewhere in [s]. *)
Fixpoint str_in (sub s : string) : bool :=
  String.prefix sub s
  || match s with
     | EmptyString => false
     | String _ s' => str_in sub s'
     end.

(** What "[sub] occurs in [s]" means, independently of [str_in]. *)
Definition occurs_in (sub s : string) : Prop :=
  ∃ before after : string, s = before +:+ sub +:+ after.

(** The tests of the three selecting cells:
    [["linear" in name and "diverging" not in name]],
    [["diverging" in name]] and
    [["cyclic" in name or "isoluminant" in name or "rainbow" in name]]. *)
Definition is_linear (name : string) : bool :=
  str_in "linear" name && negb (str_in "diverging" name).

Definition is_diverging (name : string) : bool :=
  str_in "diverging" name.

Definition is_misc (name : string) : bool :=
  str_in "cyclic" name || str_in "isoluminant" name || str_in "rainbow" name.

Section Cells.

Context {Cmap : Type}.
Variable xs : loc.

(** The colormap an entry is drawn with: its own, or for [None] the one the
    registry holds under the entry's name, if any. *)
Definition resolve (reg : gmap string Cmap) (x : named_cm) : option Cmap :=
  match x.2 with
  | Some c => Some c
  | None => reg !! x.1
  end.

(** The swatches of a list of entries, or the [KeyError] of the first entry
    that cannot be resolved. *)
Fixpoint swatches (reg : gmap string Cmap) (a : loc) (entries : list named_cm)
  : outcome (list Image) :=
  match entries with
  | [] => Return []
  | x :: rest =>
      match resolve reg x with
      | None => Raise (KeyError x.1)
      | Some c =>
          match swatches reg a rest with
          | Return imgs => Return (swatch_of a x.1 c :: imgs)
          | Raise e => Raise e
          end
      end
  end.

(** The pairs of a dictionary of colormaps, as [colormaps] receives them:
    every pair carries its colormap. *)
Definition dict_items (its : list (string * Cmap)) : list named_cm :=
  (λ '(name, cm), (name, Some cm)) <$> its.

(** [[(name, cm) for name, cm in cc.cm.items() if test(name)]], for [its]
    the pairs that [cc.cm.items()] yields, in its order. *)
Definition select (test : string → bool) (its : list (string * Cmap))
  : list named_cm :=
  dict_items (List.filter (λ '(name, _), test name) its).

(** The swatches of those pairs of [its] whose name passes [test] and does
    not end in ["_r"], each drawn on the array [a] with its own colormap. *)
Definition shown (a : loc) (test : string → bool) (its : list (string * Cmap))
  : list Image :=
  (λ '(name, cm), swatch_of a name cm)
    <$> List.filter (λ '(name, _), test name && negb (endswith name "_r")) its.

(** [colormaps([(name, cm) for name, cm in cc.cm.items()
               if "linear" in name and "diverging" not in name])] *)
Definition linear_cell (its : list (string * Cmap)) : M Layout :=
  named_cms ← new_list (select is_linear its);
  colormaps xs named_cms None None None None.

(** [colormaps([(name, cm) for name, cm in cc.cm.items() if "diverging" in name])] *)
Definition diverging_cell (its : list (string * Cmap)) : M Layout :=
  named_cms ← new_list (select is_diverging its);
  colormaps xs named_cms None None None None.

(** [colormaps([(name, cm) for name, cm in cc.cm.items()
               if "cyclic" in name or "isoluminant" in name or "rainbow" in name])] *)
Definition misc_cell (its : list (string * Cmap)) : M Layout :=
  named_cms ← new_list (select is_misc its);
  colormaps xs named_cms None None None None.

(** [colormaps(cc.cm.items())] and [colormaps(cc.cm_n.items())]: the pairs
    of the dictionary, as a sequence object of their own. *)
Definition items_cell (its : list (string * Cmap)) : M Layout :=
  named_cms ← new_list (dict_items its);
  colormaps xs named_cms None None None None.

(** [colormaps(cc.cm.items(), cols=2, array=sine, size=200)] *)
Definition sine_items_cell (sine : loc) (its : list (string * Cmap)) : M Layout :=
  named_cms ← new_list (dict_items its);
  colormaps xs named_cms (Some sine) (Some 2) None (Some 200).

End Cells.

(** A world whose sequence at reference 0 names colormaps without giving
    them; the registry holds ["fire"] and ["gray"] only. *)
Definition gap_world : World (Cmap := string) :=
  {| cc_cm := {[ "fire" := "linear_kryw_0_100_c71";
                 "gray" := "linear_grey_0_100_c0" ]};
     arrays := λ _, [];
     seqs := <[0%nat := [("fire", None); ("nowhere_r", None); ("rainbow", None);
                         ("gray", None)]]> (λ _, []);
     next := 1%nat |}.

(** A few pairs with names of the kind the registry has. *)
Definition demo_items : list (string * string) :=
  [("linear_kryw_0_100_c71", "fire"); ("linear_kryw_0_100_c71_r", "fire_r");
   ("diverging_linear_bjy_30_90_c45", "bjy"); ("diverging_bwr_40_95_c42", "bwr");
   ("cyclic_mrybm_35_75_c68", "colorwheel"); ("rainbow_bgyr_35_85_c72", "rainbow");
   ("glasbey", "glasbey")].

(** A world with several sequences: names with and without colormaps, the
    registry's pair for ["fire"] and that name alone, and two names that
    end in ["_r"]. *)
Definition plain_world : World (Cmap := string) :=
  {| cc_cm := {[ "fire" := "linear_kryw_0_100_c71" ]};
     arrays := λ _, [];
     seqs := <[0%nat := [("fire", None); ("viridis", Some "viridis")]]>
             (<[1%nat := [("fire", Some "linear_kryw_0_100_c71")]]>
             (<[2%nat := [("fire", None)]]>
             (<[3%nat := [("fire_r", None); ("hot_r", Some "hot_r")]]> (λ _, []))));
     next := 4%nat |}.

(** The sequence of [demo_world] under an empty registry. *)
Definition bare_world : World (Cmap := string) :=
  {| cc_cm := ∅;
     arrays := λ _, [];
     seqs := λ _, [("fire", Some "cmap_a"); ("fire_r", Some "cmap_b");
                   ("rainbow", Some "cmap_c")];
     next := 1%nat |}.

(** * Properties *)

(** ** [endswith] *)

Lemma substring_all (s : string) :
  String.substring 0 (String.length s) s = s.
Proof. induction s as [|c s IH]; simpl; [done|]. by rewrite IH. Qed.

Lemma substring_skip_stem (stem s : string) (k : nat) :
  String.substring (String.length stem) k (stem +:+ s) = String.substring 0 k s.
Proof. induction stem as [|c stem IH]; simpl; [done|]. apply IH. Qed.

Lemma length_append (s1 s2 : string) :
  String.length (s1 +:+ s2) = (String.length s1 + String.length s2)%nat.
Proof. induction s1 as [|c s1 IH]; simpl; [done|]. by rewrite IH. Qed.

Lemma substring_split (s : string) (m : nat) :
  (m ≤ String.length s)%nat →
  s = String.substring 0 m s +:+ String.substring m (String.length s - m) s.
Proof.
  revert m. induction s as [|c s IH]; intros [|m] Hm; simpl in *; try lia.
  - done.
  - by rewrite substring_all.
  - change (String c s = String c (String.substring 0 m s +:+
              String.substring m (String.length s - m) s)).
    f_equal. apply IH. lia.
Qed.

Lemma endswith_spec (s suffix : string) :
  endswith s suffix = true ↔ ends_in suffix s.
Proof.
  unfold endswith, ends_in. split.
  - destruct (Nat.leb_spec (String.length suffix) (String.length s)) as [Hle|];
      [|done].
    intros Heq%String.eqb_eq.
    exists (String.substring 0 (String.length s - String.length suffix) s).
    remember (String.length suffix) as k eqn:Hk.
    rewrite <- Heq.
    pose proof (substring_split s (String.length s - k)) as Hs.
    replace (String.length s - (String.length s - k))%nat with k in Hs by lia.
    apply Hs. lia.
  - intros [stem ->]. rewrite length_append.
    destruct (Nat.leb_spec (String.length suffix)
                (String.length stem + String.length suffix)); [|lia].
    replace (String.length stem + String.length suffix - String.length suffix)%nat
      with (String.length stem) by lia.
    rewrite substring_skip_stem, substring_all. apply String.eqb_refl.
Qed.

Lemma endswith_false (s suffix : string) :
  endswith s suffix = false ↔ ¬ ends_in suffix s.
Proof.
  rewrite <- endswith_spec. destruct (endswith s suffix); split; done.
Qed.

(** ** Wrapping into rows *)

Lemma ceil_div_spec (n c : Z) :
  0 < c → c * (ceil_div n c - 1) < n ≤ c * ceil_div n c.
Proof.
  intros Hc. unfold ceil_div.
  pose proof (Z.div_mod (n + c - 1) c) as Hdm.
  pose proof (Z.mod_pos_bound (n + c - 1) c Hc) as Hb.
  lia.
Qed.

Lemma ceil_div_unique (n c r : Z) :
  0 < c → c * (r - 1) < n ≤ c * r → r = ceil_div n c.
Proof.
  intros Hc Hr. pose proof (ceil_div_spec n c Hc) as Hs. nia.
Qed.

Lemma wrap_fuel_length {A : Type} (fuel c : nat) (l : list A) :
  (0 < c)%nat → (length l ≤ fuel)%nat →
  Z.of_nat (length (wrap_fuel fuel c l)) = ceil_div (Z.of_nat (length l)) (Z.of_nat c).
Proof.
  intros Hc. revert l. induction fuel as [|fuel IH]; intros l Hl.
  - destruct l; simpl in *; [|lia].
    apply ceil_div_unique; lia.
  - destruct l as [|x l]; simpl wrap_fuel.
    + apply ceil_div_unique; simpl; lia.
    + cbn [length]. rewrite Nat2Z.inj_succ, IH.
      2:{ rewrite length_drop. simpl in *. lia. }
      apply ceil_div_unique; [lia|].
      rewrite length_drop.
      pose proof (ceil_div_spec (Z.of_nat (length (x :: l) - c)) (Z.of_nat c)) as Hs.
      destruct (decide (length (x :: l) ≤ c)%nat) as [Hle|Hgt].
      * replace (length (x :: l) - c)%nat with 0%nat in * by lia.
        assert (ceil_div (Z.of_nat 0) (Z.of_nat c) = 0) as ->
          by (symmetry; apply ceil_div_unique; lia).
        simpl length in *. lia.
      * rewrite Nat2Z.inj_sub in * by lia. simpl length in *. nia.
Qed.

Lemma wrap_fuel_concat {A : Type} (fuel c : nat) (l : list A) :
  (0 < c)%nat → (length l ≤ fuel)%nat → concat (wrap_fuel fuel c l) = l.
Proof.
  intros Hc. revert l. induction fuel as [|fuel IH]; intros l Hl.
  - destruct l; simpl in *; [done|lia].
  - destruct l as [|x l]; [done|]. simpl wrap_fuel. cbn [concat].
    rewrite IH.
    + apply take_drop.
    + rewrite length_drop. simpl in *. lia.
Qed.

Lemma wrap_fuel_width {A : Type} (fuel c : nat) (l : list A) :
  Forall (λ row, (length row ≤ c)%nat) (wrap_fuel fuel c l).
Proof.
  revert l. induction fuel as [|fuel IH]; intros l; [constructor|].
  destruct l as [|x l]; [constructor|]. simpl wrap_fuel.
  constructor; [|apply IH]. rewrite length_take. lia.
Qed.

(** ** The renderers, run *)

Section Runs.

Context {Cmap : Type}.
Variable xs : loc.

Implicit Types (w : World (Cmap := Cmap)) (name : string) (c : Cmap).
Implicit Types (cmap : option Cmap) (array : option loc) (x : named_cm (Cmap := Cmap)).

Lemma colormap_explicit w name c array :
  colormap xs name (Some c) array w
  = (Return (swatch_of (default xs array) name c), w).
Proof. reflexivity. Qed.

Lemma colormap_lookup w name array :
  colormap xs name None array w
  = match cc_cm w !! name with
    | Some c => (Return (swatch_of (default xs array) name c), w)
    | None => (Raise (KeyError name), w)
    end.
Proof.
  unfold colormap, mbind, M_bind, cm_getitem. by destruct (cc_cm w !! name).
Qed.

(** A call of [colormap] leaves the world as it found it. *)
Lemma colormap_world w name cmap array :
  (colormap xs name cmap array w).2 = w.
Proof.
  destruct cmap; [done|]. rewrite colormap_lookup.
  by destruct (cc_cm w !! name).
Qed.


Lemma comprehension_cons a x entries w :
  comprehension xs a (x :: entries) w
  = match colormap xs x.1 x.2 (Some a) w with
    | (Return img, w') =>
        match comprehension xs a entries w' with
        | (Return imgs, w'') => (Return (img :: imgs), w'')
        | (Raise e, w'') => (Raise e, w'')
        end
    | (Raise e, w') => (Raise e, w')
    end.
Proof.
  destruct x as [name cm]. unfold comprehension, mapM, mbind, M_bind.
  cbn [fst snd].
  destruct (colormap xs name cm (Some a) w) as [[img|e] w']; [|done].
  match goal with |- context [match ?t with _ => _ end] =>
    by destruct t as [[imgs|e] w''] end.
Qed.

Lemma comprehension_world a entries w :
  (comprehension xs a entries w).2 = w.
Proof.
  revert w. induction entries as [|x entries IH]; intros w; [done|].
  rewrite comprehension_cons.
  pose proof (colormap_world w x.1 x.2 (Some a)) as Hw.
  destruct (colormap xs x.1 x.2 (Some a) w) as [[img|e] w']; simpl in Hw;
    subst w'; [|done].
  specialize (IH w).
  by destruct (comprehension xs a entries w) as [[imgs|e] w''].
Qed.


Lemma comprehension_length a entries w imgs w' :
  comprehension xs a entries w = (Return imgs, w') → length imgs = length entries.
Proof.
  revert w imgs w'. induction entries as [|x entries IH]; intros w imgs w'.
  - by intros [= <- _].
  - rewrite comprehension_cons.
    destruct (colormap xs x.1 x.2 (Some a) w) as [[img|e] w1]; [|done].
    destruct (comprehension xs a entries w1) as [[imgs1|e] w2] eqn:Hrest; [|done].
    intros [= <- _]. simpl. f_equal. by eapply IH.
Qed.

Lemma colormaps_run w named_cms array cols skip_r size :
  colormaps xs named_cms array cols skip_r size w
  = match comprehension xs (default xs array)
            (rendered skip_r (seqs w named_cms)) (world_after skip_r named_cms w) with
    | (Return imgs, w') =>
        (Return {| items := imgs;
                   layout_opts := Some (opts_Layout None (default 100 size));
                   max_cols := default 3 cols |}, w')
    | (Raise e, w') => (Raise e, w')
    end.
Proof.
  unfold colormaps, rendered, world_after.
  destruct (default true skip_r).
  - unfold mbind, M_bind, iter_seq, new_list, comprehension; cbn [fst snd seqs].
    rewrite fn_lookup_insert.
    match goal with |- context [mapM ?f ?l ?w'] =>
      by destruct (mapM f l w') as [[imgs|e] w''] end.
  - unfold mbind, M_bind, iter_seq, mret, M_ret, comprehension; cbn [fst snd].
    match goal with |- context [mapM ?f ?l ?w'] =>
      by destruct (mapM f l w') as [[imgs|e] w''] end.
Qed.

End Runs.

(** ** The default gradient *)

Lemma length_linspace (start stop : Q) (num : nat) :
  length (linspace start stop num) = num.
Proof. unfold linspace. by rewrite length_fmap, length_seq. Qed.

Lemma linspace_lookup (start stop : Q) (num j : nat) :
  (j < num)%nat →
  linspace start stop num !! j
  = Some (inject_Z (Z.of_nat j)
          * ((stop - start) / inject_Z (Z.of_nat num - 1)) + start)%Q.
Proof.
  intros Hj. unfold linspace. cbv zeta.
  rewrite list_lookup_fmap, lookup_seq_lt by done.
  done.
Qed.

Lemma linspace_unit_80 (j : nat) :
  (inject_Z (Z.of_nat j) * ((1 - 0) / inject_Z (Z.of_nat 80 - 1)) + 0
   == inject_Z (Z.of_nat j) / 79)%Q.
Proof.
  assert ((1 - 0) / inject_Z (Z.of_nat 80 - 1) == 1 / 79)%Q as -> by done.
  unfold Qdiv. rewrite Qmult_1_l. apply Qplus_0_r.
Qed.

Lemma define_xs_ys_run {Cmap : Type} (w : World (Cmap := Cmap)) :
  define_xs_ys w
  = (Return (next w, S (next w)),
     {| cc_cm := cc_cm w;
        arrays := <[S (next w) := (λ v, replicate 80 v) <$> linspace 0 1 10]>
                    (<[next w := replicate 10 (linspace 0 1 80)]> (arrays w));
        seqs := seqs w;
        next := S (S (next w)) |}).
Proof.
  unfold define_xs_ys, meshgrid. rewrite !length_linspace. done.
Qed.

(** ** Filtering *)


Lemma removes_exactly_unique {A : Type} (P : A → Prop) (l k1 k2 : list A) :
  removes_exactly P l k1 → removes_exactly P l k2 → k1 = k2.
Proof.
  intros H1. revert k2.
  induction H1 as [|x l k HP _ IH|x l k HP _ IH]; intros k2 H2;
    inversion H2; subst; try done; auto.
  f_equal. auto.
Qed.



Lemma not_reversed_false {Cmap : Type} (x : named_cm (Cmap := Cmap)) :
  not_reversed x = false ↔ ends_in "_r" x.1.
Proof.
  unfold not_reversed. rewrite negb_false_iff. apply endswith_spec.
Qed.

Section Claims.

Context {Cmap : Type}.
Variable xs : loc.

Implicit Types (w : World (Cmap := Cmap)) (name : string) (c : Cmap).
Implicit Types (cmap : option Cmap) (array : option loc).
Implicit Types (x : named_cm (Cmap := Cmap)) (cols size : option Z).

(** With [skip_r] set, [colormaps] renders a new list holding the filtered
    entries, exactly as it would render that list with [skip_r] unset. *)
Lemma colormaps_skip w named_cms array cols size :
  colormaps xs named_cms array cols (Some true) size w
  = (l ← new_list (List.filter not_reversed (seqs w named_cms));
     colormaps xs l array cols (Some false) size) w.
Proof.
  unfold mbind at 1. unfold M_bind. unfold new_list at 1.
  rewrite !colormaps_run. unfold rendered, world_after. cbn [default from_option id fst snd seqs].
  by rewrite fn_lookup_insert.
Qed.



(** C3: a grid of [N] items (those left after any filtering) laid out
    with a column count [C > 0] has exactly [ceil(N / C)] rows; the rows are
    the items cut in order into runs of at most [C]. *)
Theorem grid_has_ceil_rows w (named_cms : loc) array cols (skip_r : option bool)
    size (layout : Layout) (w' : World) :
  let C := default 3 cols in
  let N := length (if default true skip_r
                   then List.filter not_reversed (seqs w named_cms)
                   else seqs w named_cms) in
  0 < C →
  colormaps xs named_cms array cols skip_r size w = (Return layout, w') →
  length (items layout) = N
  ∧ Z.of_nat (length (grid_rows layout)) = ceil_div (Z.of_nat N) C
  ∧ C * (Z.of_nat (length (grid_rows layout)) - 1) < Z.of_nat N
      ≤ C * Z.of_nat (length (grid_rows layout))
  ∧ concat (grid_rows layout) = items layout
  ∧ Forall (λ row, Z.of_nat (length row) ≤ C) (grid_rows layout).
Proof.
  intros C N HC. rewrite colormaps_run.
  destruct (comprehension xs _ _ _) as [[imgs|e] w''] eqn:Hrun; [|done].
  intros [= <- _]. apply comprehension_length in Hrun.
  unfold grid_rows, wrap. cbn [items max_cols]. fold C.
  assert (length imgs = N) as HN by (by rewrite Hrun).
  assert (Z.of_nat (length (wrap_fuel (length imgs) (Z.to_nat C) imgs))
          = ceil_div (Z.of_nat N) C) as Hrows.
  { rewrite wrap_fuel_length by lia. rewrite HN. f_equal. lia. }
  split; [done|]. split; [done|].
  split; [rewrite Hrows; by apply ceil_div_spec|].
  split.
  - apply wrap_fuel_concat; lia.
  - pose proof (wrap_fuel_width (length imgs) (Z.to_nat C) imgs) as Hwidth.
    eapply Forall_impl; [|exact Hwidth]. simpl. lia.
Qed.

(** C4: the swatch is drawn with the colormap that was passed, when one was;
    when [cmap] is [None], with the one that [cc.cm[name]] returns. *)
Theorem colormap_uses_given_or_registry w name c array :
  colormap xs name (Some c) array w
  = (Return {| data := default xs array; group := name;
               image_opts := Some (opts_Image None None 3 200 c) |}, w)
  ∧ colormap xs name None array w
    = (c' ← cm_getitem name; colormap xs name (Some c') array) w
  ∧ (cc_cm w !! name = Some c →
     colormap xs name None array w = colormap xs name (Some c) array w).
Proof.
  split_and!.
  - done.
  - done.
  - intros Hc. rewrite colormap_lookup, Hc. done.
Qed.

(** C5: for a name that the registry does not hold and no explicit colormap,
    the [KeyError] of the lookup is what the call of [colormap] raises; there
    is no result, and nothing else has happened. *)
Theorem colormap_unknown_name_raises w name array :
  cc_cm w !! name = None →
  cm_getitem name w = (Raise (KeyError name), w)
  ∧ colormap xs name None array w = (Raise (KeyError name), w)
  ∧ ∀ img w', colormap xs name None array w ≠ (Return img, w').
Proof.
  intros Hnone. rewrite colormap_lookup. unfold cm_getitem. rewrite Hnone.
  by split_and!.
Qed.

(** C8: for every entry [(name, c)] of the registry, a call of [colormap]
    with that name returns a swatch, whatever the other arguments; it does
    not raise. *)
Theorem colormap_registered_name_returns w name c cmap array :
  (name, c) ∈ map_to_list (cc_cm w) →
  (∃ img, colormap xs name cmap array w = (Return img, w))
  ∧ colormap xs name None array w
    = (Return (swatch_of (default xs array) name c), w)
  ∧ ∀ e w', colormap xs name cmap array w ≠ (Raise e, w').
Proof.
  intros Hin%elem_of_map_to_list.
  assert (colormap xs name None array w
          = (Return (swatch_of (default xs array) name c), w)) as Hrun
    by (by rewrite colormap_lookup, Hin).
  destruct cmap as [c'|]; split_and!; try done.
  - by eexists.
  - by eexists.
  - by rewrite Hrun.
Qed.

(** C6: with no array given, the swatch shows the array [xs] of the
    notebook: 10 rows, each the same 80 values, the value in column [j]
    being [j / 79] -- rising linearly from 0 in the first column to 1 in the
    last, and the same in every row. *)
Theorem default_array_is_linear_gradient w name cmap (img : Image) (w2 : World)
    (i j : nat) :
  (define_xs_ys ≫= (λ '(xs, _), colormap xs name cmap None)) w = (Return img, w2) →
  (i < 10)%nat → (j < 80)%nat →
  let a := arrays w2 (data img) in
  a = replicate 10 (linspace 0 1 80)
  ∧ length a = 10%nat
  ∧ Forall (λ row, length row = 80%nat) a
  ∧ ∃ v, at2 a i j = Some v ∧ (v == inject_Z (Z.of_nat j) / 79)%Q.
Proof.
  intros Hrun Hi Hj.
  unfold mbind, M_bind in Hrun. rewrite define_xs_ys_run in Hrun.
  match type of Hrun with colormap _ _ _ _ ?w1 = _ =>
    pose proof (colormap_world (next w) w1 name cmap None) as Hw;
    assert (∀ img', (colormap (next w) name cmap None w1).1 = Return img' →
                    data img' = next w) as Hdata
  end.
  { intros img'. destruct cmap as [c|].
    - by intros [= <-].
    - rewrite colormap_lookup. cbn [cc_cm].
      destruct (cc_cm w !! name); [by intros [= <-]|done]. }
  rewrite Hrun in Hw, Hdata. cbn [fst snd] in Hw, Hdata.
  specialize (Hdata img eq_refl). subst w2. intros a. subst a.
  rewrite Hdata. cbn [arrays].
  rewrite fn_lookup_insert_ne, fn_lookup_insert by lia.
  split; [done|]. split; [by rewrite length_replicate|].
  split.
  - apply Forall_replicate, length_linspace.
  - eexists. split.
    + unfold at2. rewrite lookup_replicate_2 by done. simpl.
      by apply linspace_lookup.
    + apply linspace_unit_80.
Qed.


(** C9: neither renderer changes what it is given.  [colormap] leaves the
    whole world as it was; after [colormaps] the registry and every array
    (the array argument and the test image among them) are as before, and so
    is every sequence that existed before the call, the sequence argument
    among them. *)
Theorem renderers_leave_inputs_unchanged w name cmap array (named_cms : loc)
    (arr : option loc) cols (skip_r : option bool) size (l : loc) :
  (l < next w)%nat →
  (colormap xs name cmap array w).2 = w
  ∧ cc_cm (colormaps xs named_cms arr cols skip_r size w).2 = cc_cm w
  ∧ arrays (colormaps xs named_cms arr cols skip_r size w).2 = arrays w
  ∧ seqs (colormaps xs named_cms arr cols skip_r size w).2 l = seqs w l.
Proof.
  intros Hl. split; [apply colormap_world|].
  rewrite colormaps_run.
  pose proof (comprehension_world xs (default xs arr)
                (rendered skip_r (seqs w named_cms))
                (world_after skip_r named_cms w)) as Hw.
  destruct (comprehension xs _ _ _) as [[imgs|e] w'];
    cbn [snd] in *; subst w'; unfold world_after;
    destruct (default true skip_r); cbn [snd new_list cc_cm arrays seqs];
    (split_and!; [done|done|]); try done;
    by rewrite fn_lookup_insert_ne by lia.
Qed.

(** C10: left out, [skip_r] is [True] and [cols] is 3; the entries skipped
    are those whose first component ends in the two characters ["_r"]. *)
Theorem colormaps_defaults w (named_cms : loc) array size x :
  colormaps xs named_cms array None None size w
  = colormaps xs named_cms array (Some 3) (Some true) size w
  ∧ colormaps xs named_cms array None None size w
    = (l ← new_list (List.filter not_reversed (seqs w named_cms));
       colormaps xs l array (Some 3) (Some false) size) w
  ∧ not_reversed x = negb (endswith x.1 "_r")
  ∧ (not_reversed x = false ↔ ∃ stem : string, x.1 = stem +:+ "_r").
Proof.
  split; [done|].
  split; [exact (colormaps_skip w named_cms array (Some 3) size)|].
  split; [done|].
  apply not_reversed_false.
Qed.

End Claims.

(** ** The theorems at concrete inputs *)

Example endswith_examples :
  endswith "fire_r" "_r" = true ∧ endswith "_r" "_r" = true
  ∧ endswith "r" "_r" = false ∧ endswith "fire_r_" "_r" = false
  ∧ endswith "rainbow" "_r" = false.
Proof. by split_and!. Qed.

Example wrap_examples :
  wrap 3 [1; 2; 3; 4; 5; 6; 7] = [[1; 2; 3]; [4; 5; 6]; [7]]
  ∧ wrap 3 [1; 2; 3] = [[1; 2; 3]]
  ∧ wrap 3 ([] : list Z) = [].
Proof. by split_and!. Qed.

Example colormaps_demo :
  (colormaps 1%nat 0%nat None None None None demo_world).1
  = Return {| items := [swatch_of 1%nat "fire" "cmap_a";
                        swatch_of 1%nat "rainbow" "cmap_c"];
              layout_opts := Some (opts_Layout None 100);
              max_cols := 3 |}.
Proof. reflexivity. Qed.


Lemma grid_has_ceil_rows_witness :
  0 < 1
  ∧ length (grid_rows
              {| items := [swatch_of 1%nat "fire" "cmap_a";
                           swatch_of 1%nat "rainbow" "cmap_c"];
                 layout_opts := Some (opts_Layout None 200);
                 max_cols := 1 |}) = 2%nat.
Proof.
  split; [lia|].
  pose proof (grid_has_ceil_rows 1%nat demo_world 0%nat (Some 1%nat) (Some 1)
                None (Some 200) _ _ ltac:(simpl; lia) eq_refl) as H.
  simpl in H. destruct H as (_ & Hrows & _).
  apply Nat2Z.inj. exact Hrows.
Defined.

Lemma colormap_unknown_name_raises_witness :
  cc_cm demo_world !! "rainbow" = None
  ∧ colormap 1%nat "rainbow" None None demo_world
    = (Raise (KeyError "rainbow"), demo_world).
Proof.
  split; [reflexivity|].
  apply (colormap_unknown_name_raises 1%nat demo_world "rainbow" None).
  reflexivity.
Defined.

Lemma default_array_is_linear_gradient_witness :
  ∃ v, at2 (arrays (define_xs_ys demo_world).2 2%nat) 3 79 = Some v ∧ (v == 1)%Q.
Proof.
  destruct (default_array_is_linear_gradient demo_world "fire" None
              (swatch_of 2%nat "fire" "linear_kryw_0_100_c71")
              (define_xs_ys demo_world).2 3 79)
    as (_ & _ & _ & v & Hv & Hval); [reflexivity|lia|lia|].
  exists v. split; [exact Hv|]. rewrite Hval. reflexivity.
Defined.


Lemma colormap_registered_name_returns_witness :
  ("fire", "linear_kryw_0_100_c71") ∈ map_to_list (cc_cm demo_world)
  ∧ colormap 1%nat "fire" None None demo_world
    = (Return (swatch_of 1%nat "fire" "linear_kryw_0_100_c71"), demo_world).
Proof.
  assert (("fire", "linear_kryw_0_100_c71") ∈ map_to_list (cc_cm demo_world))
    as Hin by (apply elem_of_map_to_list; reflexivity).
  split; [exact Hin|].
  apply (colormap_registered_name_returns 1%nat demo_world "fire"
           "linear_kryw_0_100_c71" None None Hin).
Defined.

Lemma renderers_leave_inputs_unchanged_witness :
  (0 < next demo_world)%nat
  ∧ seqs (colormaps 1%nat 0%nat None None None None demo_world).2 0%nat
    = seqs demo_world 0%nat.
Proof.
  split; [simpl; lia|].
  apply (renderers_leave_inputs_unchanged 1%nat demo_world "fire" None None
           0%nat None None None None 0%nat).
  simpl; lia.
Defined.

(** * Further properties of the notebook's code *)

(** ** The [in] operator *)

Lemma append_cons (c : Ascii.ascii) (s t : string) :
  String c s +:+ t = String c (s +:+ t).
Proof. reflexivity. Qed.

Lemma prefix_spec (sub s : string) :
  String.prefix sub s = true ↔ ∃ after : string, s = sub +:+ after.
Proof.
  revert s. induction sub as [|c sub IH]; intros s.
  - destruct s; simpl; (split; [intros _; by eexists|by intros _]).
  - destruct s as [|d s]; simpl.
    + split; [done|by intros [after ?]].
    + destruct (Ascii.ascii_dec c d) as [->|Hne].
      * rewrite IH. split; intros [after Hs]; exists after;
          rewrite append_cons in *; congruence.
      * split; [done|]. intros [after Hs]. rewrite append_cons in Hs. congruence.
Qed.

Lemma str_in_spec (sub s : string) :
  str_in sub s = true ↔ occurs_in sub s.
Proof.
  unfold occurs_in. split.
  - induction s as [|c s IH]; cbn [str_in]; rewrite orb_true_iff, prefix_spec.
    + intros [[after Hs]|?]; [|done]. by exists "", after.
    + intros [[after Hs]|Hin]; [by exists "", after|].
      destruct (IH Hin) as (before & after & ->).
      by exists (String c before), after.
  - intros (before & after & ->).
    induction before as [|c before IH].
    + change ("" +:+ sub +:+ after) with (sub +:+ after).
      destruct (sub +:+ after) eqn:Hs; cbn [str_in]; apply orb_true_iff; left;
        apply prefix_spec; exists after; by rewrite <- Hs.
    + rewrite append_cons. cbn [str_in]. rewrite IH. apply orb_true_r.
Qed.

Lemma str_in_false (sub s : string) :
  str_in sub s = false ↔ ¬ occurs_in sub s.
Proof.
  rewrite <- str_in_spec. destruct (str_in sub s); split; done.
Qed.

(** ** The comprehension, entry by entry *)

Section Swatches.

Context {Cmap : Type}.
Variable xs : loc.

Implicit Types (w : World (Cmap := Cmap)) (reg : gmap string Cmap).
Implicit Types (x : named_cm (Cmap := Cmap)) (entries : list (named_cm (Cmap := Cmap))).
Implicit Types (array : option loc) (cols size : option Z) (skip_r : option bool).

Lemma colormap_resolve w x (a : loc) :
  colormap xs x.1 x.2 (Some a) w
  = (match resolve (cc_cm w) x with
     | Some c => Return (swatch_of a x.1 c)
     | None => Raise (KeyError x.1)
     end, w).
Proof.
  destruct x as [name [c|]]; unfold resolve; cbn [fst snd].
  - apply colormap_explicit.
  - rewrite colormap_lookup. by destruct (cc_cm w !! name).
Qed.

Lemma comprehension_swatches (a : loc) entries w :
  comprehension xs a entries w = (swatches (cc_cm w) a entries, w).
Proof.
  induction entries as [|x entries IH]; [done|].
  rewrite comprehension_cons, colormap_resolve. cbn [swatches].
  destruct (resolve (cc_cm w) x); [|done].
  rewrite IH. by destruct (swatches (cc_cm w) a entries).
Qed.

Lemma world_after_registry skip_r (l : loc) w :
  cc_cm (world_after skip_r l w) = cc_cm w.
Proof. unfold world_after. by destruct (default true skip_r). Qed.

(** [colormaps] in one equation: the outcome is read off the registry and
    the entries left by the filter, the final world off the flag. *)
Lemma colormaps_pure w (l : loc) array cols skip_r size :
  colormaps xs l array cols skip_r size w
  = (match swatches (cc_cm w) (default xs array) (rendered skip_r (seqs w l)) with
     | Return imgs =>
         Return {| items := imgs;
                   layout_opts := Some (opts_Layout None (default 100 size));
                   max_cols := default 3 cols |}
     | Raise e => Raise e
     end, world_after skip_r l w).
Proof.
  rewrite colormaps_run, comprehension_swatches, world_after_registry.
  by destruct (swatches _ _ _).
Qed.

Lemma swatches_Return_iff reg (a : loc) entries :
  (∃ imgs, swatches reg a entries = Return imgs)
  ↔ Forall (λ x, is_Some (resolve reg x)) entries.
Proof.
  induction entries as [|x entries IH]; cbn [swatches].
  - split; [constructor|by eexists].
  - destruct (resolve reg x) as [c|] eqn:Hx.
    + destruct (swatches reg a entries) as [imgs|e].
      * split; [|by eexists]. intros _. constructor; [by rewrite Hx|].
        apply IH. by eexists.
      * split; [by intros [? ?]|].
        intros Hall. inversion_clear Hall as [|? ? _ Hrest].
        apply IH in Hrest as [? ?]. done.
    + split; [by intros [? ?]|].
      intros Hall. inversion_clear Hall as [|? ? Hsome _].
      rewrite Hx in Hsome. by destruct Hsome.
Qed.

Lemma swatches_Forall2 reg (a : loc) entries imgs :
  swatches reg a entries = Return imgs →
  Forall2 (λ x img, ∃ c, resolve reg x = Some c ∧ img = swatch_of a x.1 c)
    entries imgs.
Proof.
  revert imgs. induction entries as [|x entries IH]; intros imgs; cbn [swatches].
  - intros [= <-]. constructor.
  - destruct (resolve reg x) as [c|] eqn:Hx; [|done].
    destruct (swatches reg a entries) as [imgs'|e]; [|done].
    intros [= <-]. constructor; [by exists c|by apply IH].
Qed.

Lemma swatches_first_unresolved reg (a : loc) pre x post :
  Forall (λ x, is_Some (resolve reg x)) pre →
  resolve reg x = None →
  swatches reg a (pre ++ x :: post) = Raise (KeyError x.1).
Proof.
  intros Hpre Hx. induction Hpre as [|y pre [c Hy] _ IH]; cbn [swatches app].
  - by rewrite Hx.
  - by rewrite Hy, IH.
Qed.

Lemma swatches_ext reg1 reg2 (a : loc) (f : named_cm → named_cm) entries :
  Forall (λ x, (f x).1 = x.1 ∧ resolve reg2 (f x) = resolve reg1 x) entries →
  swatches reg2 a (f <$> entries) = swatches reg1 a entries.
Proof.
  induction 1 as [|x entries [Hname Hres] _ IH]; [done|].
  cbn [fmap list_fmap swatches]. rewrite Hname, Hres.
  destruct (resolve reg1 x); [|done].
  fold (fmap f entries). by rewrite IH.
Qed.

Lemma swatches_dict_items reg (a : loc) (its : list (string * Cmap)) :
  swatches reg a (dict_items its)
  = Return ((λ '(name, cm), swatch_of a name cm) <$> its).
Proof.
  induction its as [|[name cm] its IH]; [done|].
  unfold dict_items in *. cbn [fmap list_fmap swatches resolve fst snd].
  fold (fmap (M := list) (λ '(name, cm), (name, Some cm) : named_cm) its).
  by rewrite IH.
Qed.

Lemma filter_not_reversed_id entries :
  Forall (λ x, ¬ ends_in "_r" x.1) entries →
  List.filter not_reversed entries = entries.
Proof.
  induction 1 as [|x entries Hx _ IH]; [done|]. simpl.
  destruct (not_reversed x) eqn:Hkeep; [by rewrite IH|].
  by apply not_reversed_false in Hkeep.
Qed.

End Swatches.

(** ** What [colormaps] returns, raises and leaves behind *)

Section Grid.

Context {Cmap : Type}.
Variable xs : loc.

Implicit Types (w : World (Cmap := Cmap)) (reg : gmap string Cmap).
Implicit Types (x : named_cm (Cmap := Cmap)) (entries : list (named_cm (Cmap := Cmap))).
Implicit Types (array : option loc) (cols size : option Z) (skip_r : option bool).

Lemma Forall_rendered (P : named_cm (Cmap := Cmap) → Prop) skip_r entries :
  Forall P entries → Forall P (rendered skip_r entries).
Proof.
  unfold rendered. destruct (default true skip_r); [|done].
  induction 1 as [|x entries Hx _ IH]; simpl; [constructor|].
  destruct (not_reversed x); [by constructor|done].
Qed.

Lemma rendered_fmap (f : named_cm (Cmap := Cmap) → named_cm (Cmap := Cmap))
    skip_r entries :
  (∀ x, (f x).1 = x.1) →
  rendered skip_r (f <$> entries) = f <$> rendered skip_r entries.
Proof.
  intros Hf. unfold rendered. destruct (default true skip_r); [|done].
  induction entries as [|x entries IH]; [done|].
  rewrite fmap_cons. cbn [List.filter].
  assert (not_reversed (f x) = not_reversed x) as ->
    by (unfold not_reversed; by rewrite Hf).
  destruct (not_reversed x); [rewrite fmap_cons|]; by rewrite IH.
Qed.

Lemma filter_all_reversed entries :
  Forall (λ x, ends_in "_r" x.1) entries → List.filter not_reversed entries = [].
Proof.
  induction 1 as [|x entries Hx _ IH]; [done|]. simpl.
  apply not_reversed_false in Hx as ->. done.
Qed.

(** X1: [colormaps] returns a layout exactly when every entry that the
    filter leaves has a colormap of its own or a name that the registry
    holds; entries that are filtered out are never looked up. *)
Theorem colormaps_returns_iff_resolvable w (named_cms : loc) array cols skip_r size :
  (∃ layout w', colormaps xs named_cms array cols skip_r size w = (Return layout, w'))
  ↔ Forall (λ x, is_Some (resolve (cc_cm w) x))
      (if default true skip_r
       then List.filter not_reversed (seqs w named_cms)
       else seqs w named_cms).
Proof.
  rewrite colormaps_pure.
  rewrite <- (swatches_Return_iff (cc_cm w) (default xs array)).
  fold (rendered skip_r (seqs w named_cms)).
  destruct (swatches _ _ _) as [imgs|e].
  - split; [by eexists|by do 2 eexists].
  - split; [by intros (? & ? & ?)|by intros [? ?]].
Qed.

(** X2: when an entry left by the filter has no colormap of its own and a
    name missing from the registry, and every entry before it can be drawn,
    [colormaps] raises the [KeyError] of that name: the first failure is the
    one reported, and no layout is returned. *)
Theorem colormaps_raises_first_unresolved w (named_cms : loc) array cols skip_r size
    (pre post : list named_cm) (name : string) :
  (if default true skip_r
   then List.filter not_reversed (seqs w named_cms)
   else seqs w named_cms) = pre ++ (name, None) :: post →
  Forall (λ x, is_Some (resolve (cc_cm w) x)) pre →
  cc_cm w !! name = None →
  (colormaps xs named_cms array cols skip_r size w).1 = Raise (KeyError name).
Proof.
  intros Hkept Hpre Hname. rewrite colormaps_pure. cbn [fst].
  unfold rendered. rewrite Hkept.
  by rewrite (swatches_first_unresolved (cc_cm w) _ pre (name, None) post).
Qed.

(** X3: a returned layout holds one swatch for each entry left by the
    filter, in order: its group is the entry's name, its array the array
    argument (or [xs]), its colormap the entry's own or the registry's, and
    its other options are fixed -- no axes, aspect 3, figure size 200.  The
    [size] and [cols] arguments reach the layout only. *)
Theorem colormaps_swatches w (named_cms : loc) array cols skip_r size
    (layout : Layout) (w' : World) :
  colormaps xs named_cms array cols skip_r size w = (Return layout, w') →
  Forall2 (λ x img, ∃ c, resolve (cc_cm w) x = Some c
                         ∧ group img = x.1
                         ∧ data img = default xs array
                         ∧ image_opts img = Some (opts_Image None None 3 200 c))
    (if default true skip_r
     then List.filter not_reversed (seqs w named_cms)
     else seqs w named_cms)
    (items layout)
  ∧ layout_opts layout = Some (opts_Layout None (default 100 size))
  ∧ max_cols layout = default 3 cols.
Proof.
  rewrite colormaps_pure.
  destruct (swatches _ _ _) as [imgs|e] eqn:Hsw; [|done].
  intros [= <- _]. split; [|done]. cbn [items].
  apply swatches_Forall2 in Hsw.
  eapply Forall2_impl; [|exact Hsw].
  intros x img (c & Hc & ->). by exists c.
Qed.

(** X4: the world after a call of [colormaps], returned or raised: with
    [skip_r] set (or left out) exactly one new list has been built, holding
    the filtered entries; with [skip_r] unset the world is the one before
    the call. *)
Theorem colormaps_final_world w (named_cms : loc) array cols skip_r size :
  (colormaps xs named_cms array cols skip_r size w).2
  = if default true skip_r
    then {| cc_cm := cc_cm w; arrays := arrays w;
            seqs := <[next w := List.filter not_reversed (seqs w named_cms)]> (seqs w);
            next := S (next w) |}
    else w.
Proof.
  rewrite colormaps_pure. cbn [snd]. unfold world_after.
  by destruct (default true skip_r).
Qed.

(** X5: on a sequence in which no name ends in ["_r"], setting [skip_r]
    changes nothing in what is returned or raised. *)
Theorem skip_r_indifferent_without_reversed w (named_cms : loc) array cols size :
  Forall (λ x, ¬ ends_in "_r" x.1) (seqs w named_cms) →
  (colormaps xs named_cms array cols (Some true) size w).1
  = (colormaps xs named_cms array cols (Some false) size w).1.
Proof.
  intros Hnone. rewrite !colormaps_pure. cbn [fst]. unfold rendered.
  cbn [default from_option id]. by rewrite filter_not_reversed_id.
Qed.

(** X6: when every entry carries its colormap, [colormaps] returns a layout
    whatever the registry holds -- the names need not be registered, and the
    layout is the same under any registry. *)
Theorem explicit_colormaps_ignore_registry (w1 w2 : World (Cmap := Cmap))
    (named_cms : loc) array cols skip_r size :
  Forall (λ x, is_Some x.2) (seqs w1 named_cms) →
  seqs w1 named_cms = seqs w2 named_cms →
  ∃ layout,
    (colormaps xs named_cms array cols skip_r size w1).1 = Return layout
    ∧ (colormaps xs named_cms array cols skip_r size w2).1 = Return layout.
Proof.
  intros Hexpl Hseq. rewrite !colormaps_pure, <- Hseq. cbn [fst].
  apply (Forall_rendered _ skip_r) in Hexpl.
  assert (swatches (cc_cm w2) (default xs array) (rendered skip_r (seqs w1 named_cms))
          = swatches (cc_cm w1) (default xs array) (rendered skip_r (seqs w1 named_cms)))
    as ->.
  { rewrite <- (list_fmap_id (rendered skip_r (seqs w1 named_cms))) at 1.
    apply swatches_ext. eapply Forall_impl; [|exact Hexpl].
    intros [name cm] [c Hc]. simpl in *. subst cm. done. }
  assert (Forall (λ x, is_Some (resolve (cc_cm w1) x))
            (rendered skip_r (seqs w1 named_cms))) as Hres.
  { eapply Forall_impl; [|exact Hexpl].
    intros [name cm] [c Hc]. simpl in *. subst cm. by eexists. }
  apply (swatches_Return_iff _ (default xs array)) in Hres as [imgs ->].
  by eexists.
Qed.

(** X7: for entries taken from the registry -- each name paired with the
    colormap that the registry holds for it -- passing the names alone, with
    [None] for every colormap, gives the same layout. *)
Theorem names_alone_same_as_registry_pairs w (pairs names : loc) array cols skip_r size :
  Forall (λ x, ∃ c, x.2 = Some c ∧ cc_cm w !! x.1 = Some c) (seqs w pairs) →
  seqs w names = (λ x, (x.1, None)) <$> seqs w pairs →
  (colormaps xs names array cols skip_r size w).1
  = (colormaps xs pairs array cols skip_r size w).1.
Proof.
  intros Hreg Hnames. rewrite !colormaps_pure, Hnames. cbn [fst].
  rewrite rendered_fmap by done.
  rewrite (swatches_ext (cc_cm w) (cc_cm w)); [done|].
  apply Forall_rendered. eapply Forall_impl; [|exact Hreg].
  intros [name cm] (c & Hcm & Hc). simpl in *. subst cm.
  split; [done|]. unfold resolve. simpl. done.
Qed.

(** X8: on an empty sequence, and on one in which every name ends in
    ["_r"], [colormaps] with [skip_r] left out returns a layout with no
    swatch; it does not raise, whatever the entries' colormaps are. *)
Theorem all_reversed_gives_empty_layout w (named_cms : loc) array cols size :
  Forall (λ x, ends_in "_r" x.1) (seqs w named_cms) →
  (colormaps xs named_cms array cols None size w).1
  = Return {| items := [];
              layout_opts := Some (opts_Layout None (default 100 size));
              max_cols := default 3 cols |}.
Proof.
  intros Hall. rewrite colormaps_pure. cbn [fst]. unfold rendered.
  cbn [default from_option id]. by rewrite filter_all_reversed.
Qed.

End Grid.

(** ** The cells *)

Section CellRuns.

Context {Cmap : Type}.
Variable xs : loc.

Implicit Types (w : World (Cmap := Cmap)) (its : list (string * Cmap)).
Implicit Types (test : string → bool).

Lemma filter_dict_items test its :
  List.filter not_reversed (select test its)
  = dict_items (List.filter (λ '(name, _), test name && negb (endswith name "_r")) its).
Proof.
  unfold select, dict_items.
  induction its as [|[name cm] its IH]; [done|]. cbn [List.filter].
  destruct (test name); cbn [andb].
  - rewrite fmap_cons. cbn [List.filter]. unfold not_reversed at 1. cbn [fst].
    destruct (negb (endswith name "_r")); [rewrite fmap_cons|]; by rewrite IH.
  - done.
Qed.

Lemma select_all its : select (λ _, true) its = dict_items its.
Proof.
  unfold select. f_equal. induction its as [|[name cm] its IH]; [done|].
  simpl. by rewrite IH.
Qed.

(** A call [colormaps(selection, array, cols, size=…)] on a new list of
    selected pairs. *)
Lemma selection_run test its w (array : option loc) (cols size : option Z) :
  ((named_cms ← new_list (select test its);
    colormaps xs named_cms array cols None size) w).1
  = Return {| items := shown (default xs array) test its;
              layout_opts := Some (opts_Layout None (default 100 size));
              max_cols := default 3 cols |}.
Proof.
  unfold mbind, M_bind, new_list. rewrite colormaps_pure.
  cbn [fst seqs cc_cm]. rewrite fn_lookup_insert. unfold rendered.
  cbn [default from_option id].
  by rewrite filter_dict_items, swatches_dict_items.
Qed.

Lemma elem_of_shown (a : loc) test its (img : Image) :
  img ∈ shown a test its
  ↔ ∃ name cm, (name, cm) ∈ its ∧ test name = true
               ∧ ¬ ends_in "_r" name ∧ img = swatch_of a name cm.
Proof.
  unfold shown. rewrite list_elem_of_fmap. split.
  - intros ([name cm] & -> & Hin).
    apply list_elem_of_In, filter_In in Hin as [Hin Htest].
    apply andb_true_iff in Htest as [Htest Hkeep].
    exists name, cm. split_and!; try done.
    + by apply list_elem_of_In.
    + apply endswith_false. by apply negb_true_iff.
  - intros (name & cm & Hin & Htest & Hkeep & ->).
    exists (name, cm). split; [done|].
    apply list_elem_of_In, filter_In. split; [by apply list_elem_of_In|].
    apply andb_true_iff. split; [done|].
    apply negb_true_iff. by apply endswith_false.
Qed.

End CellRuns.

Section CellClaims.

Context {Cmap : Type}.
Variable xs : loc.

Implicit Types (w : World (Cmap := Cmap)) (its : list (string * Cmap)).

(** X9: each cell that draws pairs of a registry returns a layout, whatever
    the pairs are; it shows, in the registry's order, the pairs that pass
    the cell's test and whose name does not end in ["_r"], each with its own
    colormap -- on [xs], three to a row, at size 100, or for the last cell
    on the test image, two to a row, at size 200. *)
Theorem registry_cells_outcome its w (sine : loc) :
  (linear_cell xs its w).1
  = Return {| items := shown xs is_linear its;
              layout_opts := Some (opts_Layout None 100); max_cols := 3 |}
  ∧ (diverging_cell xs its w).1
    = Return {| items := shown xs is_diverging its;
                layout_opts := Some (opts_Layout None 100); max_cols := 3 |}
  ∧ (misc_cell xs its w).1
    = Return {| items := shown xs is_misc its;
                layout_opts := Some (opts_Layout None 100); max_cols := 3 |}
  ∧ (items_cell xs its w).1
    = Return {| items := shown xs (λ _, true) its;
                layout_opts := Some (opts_Layout None 100); max_cols := 3 |}
  ∧ (sine_items_cell xs sine its w).1
    = Return {| items := shown sine (λ _, true) its;
                layout_opts := Some (opts_Layout None 200); max_cols := 2 |}.
Proof.
  unfold linear_cell, diverging_cell, misc_cell, items_cell, sine_items_cell.
  rewrite <- !select_all. rewrite !selection_run. done.
Qed.

(** X10: the swatches of the three selecting cells, by name.  The linear
    grid holds a swatch for exactly the pairs in whose name "linear" occurs
    and "diverging" does not; the diverging grid for those in whose name
    "diverging" occurs; the third grid for those in whose name "cyclic",
    "isoluminant" or "rainbow" occurs -- in each case leaving out the names
    that end in ["_r"]. *)
Theorem selecting_cells_members its w (img : Image) :
  (∃ layout w', linear_cell xs its w = (Return layout, w')
     ∧ (img ∈ items layout
        ↔ ∃ name cm, (name, cm) ∈ its
            ∧ (occurs_in "linear" name ∧ ¬ occurs_in "diverging" name)
            ∧ ¬ ends_in "_r" name ∧ img = swatch_of xs name cm))
  ∧ (∃ layout w', diverging_cell xs its w = (Return layout, w')
       ∧ (img ∈ items layout
          ↔ ∃ name cm, (name, cm) ∈ its
              ∧ occurs_in "diverging" name
              ∧ ¬ ends_in "_r" name ∧ img = swatch_of xs name cm))
  ∧ (∃ layout w', misc_cell xs its w = (Return layout, w')
       ∧ (img ∈ items layout
          ↔ ∃ name cm, (name, cm) ∈ its
              ∧ (occurs_in "cyclic" name ∨ occurs_in "isoluminant" name
                 ∨ occurs_in "rainbow" name)
              ∧ ¬ ends_in "_r" name ∧ img = swatch_of xs name cm)).
Proof.
  assert (∀ test (P : string → Prop),
    (∀ name, test name = true ↔ P name) →
    ∃ layout w',
      (named_cms ← new_list (select test its);
       colormaps xs named_cms None None None None) w = (Return layout, w')
      ∧ (img ∈ items layout
         ↔ ∃ name cm, (name, cm) ∈ its ∧ P name
             ∧ ¬ ends_in "_r" name ∧ img = swatch_of xs name cm)) as Hcell.
  { intros test P HP.
    pose proof (selection_run xs test its w None None None) as Hrun.
    destruct ((_ ← new_list (select test its); colormaps xs _ None None None None) w)
      as [[layout|e] w'] eqn:Hcall; cbn [fst] in Hrun; [|done].
    injection Hrun as ->. do 2 eexists. split; [done|]. cbn [items].
    rewrite elem_of_shown. by setoid_rewrite HP. }
  split_and!.
  - apply Hcell. intros name. unfold is_linear.
    by rewrite andb_true_iff, negb_true_iff, str_in_spec, str_in_false.
  - apply Hcell. intros name. apply str_in_spec.
  - apply Hcell. intros name. unfold is_misc.
    rewrite !orb_true_iff, !str_in_spec. tauto.
Qed.

(** X11: no name is shown both in the linear and in the diverging grid: a
    name with both words in it, such as "diverging_linear_bjy_30_90_c45",
    goes to the diverging grid only. *)
Theorem linear_and_diverging_grids_disjoint its (w1 w2 w1' w2' : World)
    (linear diverging : Layout) (img1 img2 : Image) :
  linear_cell xs its w1 = (Return linear, w1') →
  diverging_cell xs its w2 = (Return diverging, w2') →
  img1 ∈ items linear → img2 ∈ items diverging →
  group img1 ≠ group img2.
Proof.
  intros Hlin Hdiv.
  pose proof (selection_run xs is_linear its w1 None None None) as H1.
  pose proof (selection_run xs is_diverging its w2 None None None) as H2.
  unfold linear_cell in Hlin. unfold diverging_cell in Hdiv.
  rewrite Hlin in H1. rewrite Hdiv in H2. cbn [fst] in H1, H2.
  injection H1 as ->. injection H2 as ->. cbn [items].
  rewrite !elem_of_shown.
  intros (n1 & c1 & _ & Hn1 & _ & ->) (n2 & c2 & _ & Hn2 & _ & ->) Heq.
  cbn [group swatch_of] in Heq. subst n2.
  unfold is_linear, is_diverging in *.
  apply andb_true_iff in Hn1 as [_ Hn1]. rewrite Hn2 in Hn1. done.
Qed.

End CellClaims.

(** ** The second gradient *)

Lemma linspace_unit_10 (i : nat) :
  (inject_Z (Z.of_nat i) * ((1 - 0) / inject_Z (Z.of_nat 10 - 1)) + 0
   == inject_Z (Z.of_nat i) / 9)%Q.
Proof.
  assert ((1 - 0) / inject_Z (Z.of_nat 10 - 1) == 1 / 9)%Q as -> by done.
  unfold Qdiv. rewrite Qmult_1_l. apply Qplus_0_r.
Qed.

Lemma at2_lookup (a : list (list Q)) (i j : nat) (row : list Q) (v : Q) :
  a !! i = Some row → row !! j = Some v → at2 a i j = Some v.
Proof. unfold at2. intros Hrow Hv. rewrite Hrow. exact Hv. Qed.

(** X12: the cell that defines [xs] and [ys] builds two new arrays and
    touches nothing that existed: the two references are fresh and
    distinct, every earlier array, every sequence and the registry are as
    before.  [ys] has the shape of [xs], 10 rows of 80 values, and is the
    vertical gradient: the value in row [i] is [i / 9] in every column. *)
Theorem define_xs_ys_builds_two_gradients {Cmap : Type} (w : World (Cmap := Cmap))
    (i j : nat) (l : loc) :
  (i < 10)%nat → (j < 80)%nat → (l < next w)%nat →
  ∃ (xs ys : loc) (w1 : World),
    define_xs_ys w = (Return (xs, ys), w1)
    ∧ xs ≠ ys ∧ (next w ≤ xs)%nat ∧ (next w ≤ ys)%nat
    ∧ (xs < next w1)%nat ∧ (ys < next w1)%nat
    ∧ length (arrays w1 ys) = 10%nat
    ∧ Forall (λ row, length row = 80%nat) (arrays w1 ys)
    ∧ (∃ v, at2 (arrays w1 ys) i j = Some v ∧ (v == inject_Z (Z.of_nat i) / 9)%Q)
    ∧ (∃ v, at2 (arrays w1 xs) i j = Some v ∧ (v == inject_Z (Z.of_nat j) / 79)%Q)
    ∧ arrays w1 l = arrays w l
    ∧ seqs w1 = seqs w
    ∧ cc_cm w1 = cc_cm w.
Proof.
  intros Hi Hj Hl. rewrite define_xs_ys_run. do 3 eexists. split; [done|].
  cbn [arrays seqs cc_cm next].
  rewrite fn_lookup_insert, fn_lookup_insert_ne, fn_lookup_insert by lia.
  rewrite !fn_lookup_insert_ne by lia.
  split; [lia|]. split; [lia|]. split; [lia|]. split; [lia|]. split; [lia|].
  split; [by rewrite length_fmap, length_linspace|].
  split.
  { apply Forall_fmap, Forall_forall. intros v _. apply length_replicate. }
  split.
  { eexists. split; [|apply linspace_unit_10].
    eapply at2_lookup.
    - rewrite list_lookup_fmap, linspace_lookup by done. reflexivity.
    - by apply lookup_replicate_2. }
  split; [|done].
  eexists. split; [|apply linspace_unit_80].
  eapply at2_lookup.
  - by apply lookup_replicate_2.
  - by apply linspace_lookup.
Qed.

(** ** The further properties at concrete inputs *)

Example str_in_examples :
  str_in "linear" "diverging_linear_bjy_30_90_c45" = true
  ∧ str_in "diverging" "linear_kryw_0_100_c71" = false
  ∧ str_in "" "" = true
  ∧ str_in "rainbow" "rainbo" = false.
Proof. by split_and!. Qed.

Example linear_cell_demo :
  (linear_cell 1%nat demo_items demo_world).1
  = Return {| items := [swatch_of 1%nat "linear_kryw_0_100_c71" "fire"];
              layout_opts := Some (opts_Layout None 100);
              max_cols := 3 |}.
Proof. reflexivity. Qed.

Lemma colormaps_raises_first_unresolved_witness :
  cc_cm gap_world !! "rainbow" = None
  ∧ (colormaps 1%nat 0%nat None None None None gap_world).1
    = Raise (KeyError "rainbow").
Proof.
  split; [reflexivity|].
  apply (colormaps_raises_first_unresolved 1%nat gap_world 0%nat None None None None
           [("fire", None)] [("gray", None)] "rainbow").
  - reflexivity.
  - constructor; [|constructor]. by eexists.
  - reflexivity.
Defined.

Lemma colormaps_swatches_witness :
  colormaps 1%nat 0%nat None (Some 2) None (Some 50) plain_world
  = (Return {| items := [swatch_of 1%nat "fire" "linear_kryw_0_100_c71";
                         swatch_of 1%nat "viridis" "viridis"];
               layout_opts := Some (opts_Layout None 50);
               max_cols := 2 |},
     (colormaps 1%nat 0%nat None (Some 2) None (Some 50) plain_world).2)
  ∧ max_cols {| items := [swatch_of 1%nat "fire" "linear_kryw_0_100_c71";
                          swatch_of 1%nat "viridis" "viridis"];
                layout_opts := Some (opts_Layout None 50);
                max_cols := 2 |} = 2.
Proof.
  split; [reflexivity|].
  apply (colormaps_swatches 1%nat plain_world 0%nat None (Some 2) None (Some 50) _
           (colormaps 1%nat 0%nat None (Some 2) None (Some 50) plain_world).2).
  reflexivity.
Defined.

Lemma skip_r_indifferent_without_reversed_witness :
  Forall (λ x : named_cm, ¬ ends_in "_r" x.1) (seqs plain_world 0%nat)
  ∧ (colormaps 1%nat 0%nat None None (Some true) None plain_world).1
    = (colormaps 1%nat 0%nat None None (Some false) None plain_world).1.
Proof.
  assert (Forall (λ x : named_cm, ¬ ends_in "_r" x.1) (seqs plain_world 0%nat))
    as Hnone.
  { repeat constructor; apply endswith_false; reflexivity. }
  split; [exact Hnone|].
  apply (skip_r_indifferent_without_reversed 1%nat plain_world 0%nat None None None Hnone).
Defined.

Lemma explicit_colormaps_ignore_registry_witness :
  Forall (λ x : named_cm, is_Some x.2) (seqs demo_world 0%nat)
  ∧ seqs demo_world 0%nat = seqs bare_world 0%nat
  ∧ ∃ layout,
      (colormaps 1%nat 0%nat None None None None demo_world).1 = Return layout
      ∧ (colormaps 1%nat 0%nat None None None None bare_world).1 = Return layout.
Proof.
  assert (Forall (λ x : named_cm, is_Some x.2) (seqs demo_world 0%nat)) as Hexpl
    by (repeat constructor; by eexists).
  split; [exact Hexpl|]. split; [reflexivity|].
  apply (explicit_colormaps_ignore_registry 1%nat demo_world bare_world 0%nat
           None None None None Hexpl).
  reflexivity.
Defined.

Lemma names_alone_same_as_registry_pairs_witness :
  seqs plain_world 2%nat = (λ x, (x.1, None)) <$> seqs plain_world 1%nat
  ∧ (colormaps 1%nat 2%nat None None None None plain_world).1
    = (colormaps 1%nat 1%nat None None None None plain_world).1.
Proof.
  split; [reflexivity|].
  apply (names_alone_same_as_registry_pairs 1%nat plain_world 1%nat 2%nat
           None None None None).
  - repeat constructor. exists "linear_kryw_0_100_c71". split; reflexivity.
  - reflexivity.
Defined.

Lemma all_reversed_gives_empty_layout_witness :
  Forall (λ x : named_cm, ends_in "_r" x.1) (seqs plain_world 3%nat)
  ∧ (colormaps 1%nat 3%nat None None None None plain_world).1
    = Return {| items := []; layout_opts := Some (opts_Layout None 100);
                max_cols := 3 |}.
Proof.
  assert (Forall (λ x : named_cm, ends_in "_r" x.1) (seqs plain_world 3%nat))
    as Hall.
  { repeat constructor; apply endswith_spec; reflexivity. }
  split; [exact Hall|].
  apply (all_reversed_gives_empty_layout 1%nat plain_world 3%nat None None None Hall).
Defined.

Lemma linear_and_diverging_grids_disjoint_witness :
  swatch_of 1%nat "linear_kryw_0_100_c71" "fire"
    ∈ shown 1%nat is_linear demo_items
  ∧ swatch_of 1%nat "diverging_linear_bjy_30_90_c45" "bjy"
    ∈ shown 1%nat is_diverging demo_items
  ∧ "linear_kryw_0_100_c71" ≠ "diverging_linear_bjy_30_90_c45".
Proof.
  assert (swatch_of 1%nat "linear_kryw_0_100_c71" "fire"
            ∈ shown 1%nat is_linear demo_items) as H1
    by apply list_elem_of_here.
  assert (swatch_of 1%nat "diverging_linear_bjy_30_90_c45" "bjy"
            ∈ shown 1%nat is_diverging demo_items) as H2
    by apply list_elem_of_here.
  split; [exact H1|]. split; [exact H2|].
  apply (linear_and_diverging_grids_disjoint 1%nat demo_items
           demo_world demo_world
           (linear_cell 1%nat demo_items demo_world).2
           (diverging_cell 1%nat demo_items demo_world).2
           {| items := shown 1%nat is_linear demo_items;
              layout_opts := Some (opts_Layout None 100); max_cols := 3 |}
           {| items := shown 1%nat is_diverging demo_items;
              layout_opts := Some (opts_Layout None 100); max_cols := 3 |}
           (swatch_of 1%nat "linear_kryw_0_100_c71" "fire")
           (swatch_of 1%nat "diverging_linear_bjy_30_90_c45" "bjy"));
    [reflexivity|reflexivity|exact H1|exact H2].
Defined.

Lemma define_xs_ys_builds_two_gradients_witness :
  ∃ (xs ys : loc) (w1 : World (Cmap := string)),
    define_xs_ys demo_world = (Return (xs, ys), w1)
    ∧ ∃ v, at2 (arrays w1 ys) 9 0 = Some v ∧ (v == 1)%Q.
Proof.
  destruct (define_xs_ys_builds_two_gradients demo_world 9 0 1%nat)
    as (xs & ys & w1 & Hrun & _ & _ & _ & _ & _ & _ & _ & (v & Hv & Hval) & _);
    [lia|lia|simpl; lia|].
  exists xs, ys, w1. split; [exact Hrun|].
  exists v. split; [exact Hv|]. rewrite Hval. reflexivity.
Defined.
